(** * The object-file abstraction of gem5's loader

    A shallow embedding of [src/base/loader/object_file.hh]: the
    [ObjectFile] base class, its [Segment] model, the address-range
    queries, the relocatable-only operations and the loader dispatch. *)

From Stdlib Require Import ZArith List String Bool Lia.
From Stdlib Require Import Init.Byte.
From Stdlib Require Import Permutation.
Import ListNotations.

Local Open Scope Z_scope.

(** ** Outcomes of a call *)

(** Modelled from the spec: [panic(...)] is a macro of [base/logging.hh],
    which is not part of the sources.  A panic terminates the operation
    irrecoverably, the equivalent of an assertion: a call either returns a
    value or ends in a panic carrying its message, and nothing runs after
    a panic. *)
Inductive outcome (A : Type) : Type :=
| Ret (a : A)
| Panic (msg : string).

Arguments Ret {A} a.
Arguments Panic {A} msg.

Definition bind {A B : Type} (c : outcome A) (k : A -> outcome B) : outcome B :=
  match c with
  | Ret a => k a
  | Panic msg => Panic msg
  end.

Notation "x <- c ;; k" := (bind c (fun x => k))
  (at level 61, c at next level, right associativity).

Definition returns {A : Type} (c : outcome A) : bool :=
  match c with
  | Ret _ => true
  | Panic _ => false
  end.

(** ** The address type *)

(** [Addr] is declared in [base/types.hh], which is not part of the
    sources: an unsigned integer of a fixed width.  The width is a
    parameter of the development, and values of type [size_t] are taken to
    be no wider than [Addr]. *)
Definition Addr : Type := Z.

Class AddrType : Type := {
  addr_bits : Z;
  addr_bits_pos : 0 < addr_bits
}.

Section AddressArithmetic.
Context `{AddrType}.

Definition modulus : Z := 2 ^ addr_bits.

(** [static const Addr maxAddr = std::numeric_limits<Addr>::max();] *)
Definition maxAddr : Addr := modulus - 1.

(** Unsigned arithmetic on [Addr] is taken modulo [2 ^ addr_bits]. *)
Definition wrap (x : Z) : Addr := x mod modulus.

Definition is_addr (x : Z) : bool := (0 <=? x) && (x <=? maxAddr).
End AddressArithmetic.

(** ** Enumerations *)

Inductive Arch : Type :=
| UnknownArch | Alpha | SPARC64 | SPARC32 | Mips | X86_64 | I386
| Arm64 | Arm | Thumb | Power | Riscv64 | Riscv32.

Inductive OpSys : Type :=
| UnknownOpSys | Tru64 | Linux | Solaris | LinuxArmOABI | FreeBSD.

(** ** Segments and object files *)

Record Segment : Type := mkSegment {
  name : string;
  base : Addr;
  data : list byte;
  size : Z
}.

Record ObjectFile : Type := mkObjectFile {
  filename : string;
  fileData : list byte;
  len : Z;
  loadOffset : Addr;
  loadMask : Addr;
  arch : Arch;
  opSys : OpSys;
  entry : Addr;
  segments : list Segment
}.

(** The bytes a segment stands for: [data[0 .. size)]. *)
Definition segmentBytes (seg : Segment) : list byte :=
  firstn (Z.to_nat (size seg)) (data seg).

Section ObjectFileBase.
Context `{AddrType}.

Definition wf_segment (seg : Segment) : bool :=
  is_addr (base seg) && is_addr (size seg).

Definition wf_object (o : ObjectFile) : bool :=
  is_addr (loadOffset o) && is_addr (loadMask o) && is_addr (entry o)
  && forallb wf_segment (segments o).

(** The segments whose [base + size] does not pass [maxAddr]. *)
Definition endFits (seg : Segment) : bool := is_addr (base seg + size seg).


(** [Arch getArch() const { return arch; }] *)
Definition getArch (o : ObjectFile) : Arch := arch o.

(** [OpSys getOpSys() const { return opSys; }] *)
Definition getOpSys (o : ObjectFile) : OpSys := opSys o.

(** [Addr entryPoint() const { return entry; }] *)
Definition entryPoint (o : ObjectFile) : Addr := entry o.

(** [void addSegment(std::string name, Addr base, uint8_t *data,
    size_t size)]: a fresh segment is appended to [segments]. *)
Definition addSegment (o : ObjectFile) (nm : string) (b : Addr)
    (d : list byte) (sz : Z) : ObjectFile :=
  let seg := {| name := nm; base := b; data := d; size := sz |} in
  {| filename := filename o; fileData := fileData o; len := len o;
     loadOffset := loadOffset o; loadMask := loadMask o;
     arch := arch o; opSys := opSys o; entry := entry o;
     segments := segments o ++ [seg] |}.

(** [void setLoadOffset(Addr val) { loadOffset = val; }] *)
Definition setLoadOffset (o : ObjectFile) (val : Addr) : ObjectFile :=
  {| filename := filename o; fileData := fileData o; len := len o;
     loadOffset := val; loadMask := loadMask o;
     arch := arch o; opSys := opSys o; entry := entry o;
     segments := segments o |}.

(** [void setLoadMask(Addr val) { loadMask = val; }] *)
Definition setLoadMask (o : ObjectFile) (val : Addr) : ObjectFile :=
  {| filename := filename o; fileData := fileData o; len := len o;
     loadOffset := loadOffset o; loadMask := val;
     arch := arch o; opSys := opSys o; entry := entry o;
     segments := segments o |}.

(** The end of a segment as the code computes it:
    [Addr end = seg->base + seg->size;] *)
Definition segmentEnd (seg : Segment) : Addr := wrap (base seg + size seg).

(** The loop of [maxSegmentAddr], with the running [max]. *)
Fixpoint maxSegmentAddr_loop (segs : list Segment) (max : Addr) : Addr :=
  match segs with
  | [] => max
  | seg :: rest =>
      let end_ := segmentEnd seg in
      maxSegmentAddr_loop rest (if end_ >? max then end_ else max)
  end.

Definition maxSegmentAddr (o : ObjectFile) : Addr :=
  maxSegmentAddr_loop (segments o) 0.

(** The loop of [minSegmentAddr], with the running [min]. *)
Fixpoint minSegmentAddr_loop (segs : list Segment) (min : Addr) : Addr :=
  match segs with
  | [] => min
  | seg :: rest =>
      minSegmentAddr_loop rest (if base seg <? min then base seg else min)
  end.

Definition minSegmentAddr (o : ObjectFile) : Addr :=
  minSegmentAddr_loop (segments o) maxAddr.

(** The loop of [contains]: the first segment whose test succeeds returns
    [true]. *)
Fixpoint contains_loop (segs : list Segment) (addr : Addr) : bool :=
  match segs with
  | [] => false
  | seg :: rest =>
      let start := base seg in
      let end_ := segmentEnd seg in
      if (addr >=? start) && (addr <? end_) then true
      else contains_loop rest addr
  end.

Definition contains (o : ObjectFile) (addr : Addr) : bool :=
  contains_loop (segments o) addr.
End ObjectFileBase.

(** ** Collaborators

    [SymbolTable] is only forward-declared in the header. *)

(** Modelled from the spec: the symbol table is consumed through
    [insert(name, address)]; its class is not part of the sources.  It is
    kept as the sequence of inserted entries. *)
Definition SymbolTable : Type := list (string * Addr).

Definition newline : string := String (Ascii.ascii_of_nat 10) EmptyString.

(** ** Virtual methods with a body in the base class *)

Section ObjectFileVirtuals.
Context `{AddrType}.

(** [virtual bool loadWeakSymbols(SymbolTable *symtab, Addr base=0,
    Addr offset=0, Addr mask=maxAddr) { return false; }]

    The method is not [const] and receives the table by pointer: the
    model returns the result together with the table and the object as
    the call leaves them. *)
Definition loadWeakSymbols (o : ObjectFile) (symtab : SymbolTable)
    (base_ offset mask : Addr) : bool * SymbolTable * ObjectFile :=
  (false, symtab, o).

(** [virtual ObjectFile *getInterpreter() const { return nullptr; }] *)
Definition getInterpreter (o : ObjectFile) : option ObjectFile := None.

(** [virtual bool relocatable() const { return false; }] *)
Definition relocatable (o : ObjectFile) : bool := false.

(** [virtual Addr mapSize() const { panic("mapSize() should only be
    called on relocatable objects\n"); }] *)
Definition mapSize (o : ObjectFile) : outcome Addr :=
  Panic ("mapSize() should only be called on relocatable objects"
           ++ newline)%string.

(** [virtual void updateBias(Addr bias_addr) { panic("updateBias() should
    only be called on relocatable objects\n"); }]; a returning call would
    yield the object as updated. *)
Definition updateBias (o : ObjectFile) (bias_addr : Addr)
    : outcome ObjectFile :=
  Panic ("updateBias() should only be called on relocatable objects"
           ++ newline)%string.

(** [virtual Addr bias() const { return 0; }] *)
Definition bias (o : ObjectFile) : Addr := 0.

(** [virtual bool hasTLS() { return false; }] *)
Definition hasTLS (o : ObjectFile) : bool * ObjectFile := (false, o).

(** Modelled from the spec: the constructor
    [ObjectFile(filename, len, data, arch, opSys)] is declared in the
    header and defined elsewhere.  It stores its arguments; [loadOffset]
    and [loadMask] take the header's default member initialisers, the
    segment collection starts empty and [entry], which is meaningful only
    after a parse, starts at 0. *)
Definition newObjectFile (fname : string) (l : Z) (d : list byte)
    (a : Arch) (os : OpSys) : ObjectFile :=
  {| filename := fname; fileData := d; len := l;
     loadOffset := 0; loadMask := maxAddr;
     arch := a; opSys := os; entry := 0; segments := [] |}.
End ObjectFileVirtuals.

(** ** Mapping segments into a memory sink *)

Section MemorySink.
Context `{AddrType}.

(** Modelled from the spec: the memory sink ([PortProxy], only
    forward-declared) offers [write(address, bytes) -> success|failure];
    [Mem] is the state of the memory behind it. *)
Variable Mem : Type.
Variable write : Mem -> Addr -> list byte -> bool * Mem.

(** Modelled from the spec: the address transform of loading,
    [(segment.base + loadOffset) & loadMask]. *)
Definition loadAddr (o : ObjectFile) (a : Addr) : Addr :=
  Z.land (wrap (a + loadOffset o)) (loadMask o).

(** Modelled from the spec: [bool loadSegment(Segment *seg, const
    PortProxy &mem_proxy)] is declared in the header and defined
    elsewhere; it writes the segment's bytes at the transformed address
    and reports what the sink answers. *)
Definition loadSegment (o : ObjectFile) (seg : Segment) (mem : Mem)
    : outcome (bool * Mem) :=
  Ret (write mem (loadAddr o (base seg)) (segmentBytes seg)).

(** Modelled from the spec: [virtual bool loadSegments(const PortProxy
    &mem_proxy)] is declared in the header and defined elsewhere; it
    loads every segment in order and returns failure as soon as a segment
    is rejected. *)
Fixpoint loadSegments_loop (o : ObjectFile) (segs : list Segment)
    (mem : Mem) : outcome (bool * Mem) :=
  match segs with
  | [] => Ret (true, mem)
  | seg :: rest =>
      r <- loadSegment o seg mem ;;
      if fst r then loadSegments_loop o rest (snd r)
      else Ret (false, snd r)
  end.

Definition loadSegments (o : ObjectFile) (mem : Mem)
    : outcome (bool * Mem) :=
  loadSegments_loop o (segments o) mem.

(** What the contract of [loadSegments] prescribes, in sink terms: the
    write of each segment, in order. *)
Definition segmentWrite (o : ObjectFile) (seg : Segment)
    : Addr * list byte :=
  (Z.land (wrap (base seg + loadOffset o)) (loadMask o), segmentBytes seg).

(** [AllWritten mem ws mem']: the sink accepts every write of [ws] in
    turn, which takes it from [mem] to [mem']. *)
Inductive AllWritten : Mem -> list (Addr * list byte) -> Mem -> Prop :=
| AllWritten_nil mem : AllWritten mem [] mem
| AllWritten_cons mem a bs mem1 ws mem2 :
    write mem a bs = (true, mem1) ->
    AllWritten mem1 ws mem2 ->
    AllWritten mem ((a, bs) :: ws) mem2.

(** *** The operations of the class as a state machine

    A call of an operation returns a value and leaves the object in some
    state, or panics. *)
Inductive Value : Type :=
| VUnit
| VBool (b : bool)
| VAddr (a : Addr)
| VArch (a : Arch)
| VOpSys (os : OpSys)
| VObject (i : option ObjectFile).

Inductive Operation : Type :=
| CallLoadSegments (mem : Mem)
| CallLoadWeakSymbols (symtab : SymbolTable) (base_ offset mask : Addr)
| CallGetInterpreter
| CallRelocatable
| CallMapSize
| CallUpdateBias (bias_addr : Addr)
| CallBias
| CallHasTLS
| CallGetArch
| CallGetOpSys
| CallEntryPoint
| CallMaxSegmentAddr
| CallMinSegmentAddr
| CallContains (addr : Addr)
| CallSetLoadOffset (val : Addr)
| CallSetLoadMask (val : Addr)
| CallAddSegment (nm : string) (b : Addr) (d : list byte) (sz : Z).

Definition call (op : Operation) (o : ObjectFile)
    : outcome (Value * ObjectFile) :=
  match op with
  | CallLoadSegments mem =>
      r <- loadSegments o mem ;; Ret (VBool (fst r), o)
  | CallLoadWeakSymbols symtab b off m =>
      let '(r, _, o') := loadWeakSymbols o symtab b off m in
      Ret (VBool r, o')
  | CallGetInterpreter => Ret (VObject (getInterpreter o), o)
  | CallRelocatable => Ret (VBool (relocatable o), o)
  | CallMapSize => a <- mapSize o ;; Ret (VAddr a, o)
  | CallUpdateBias bias_addr => o' <- updateBias o bias_addr ;; Ret (VUnit, o')
  | CallBias => Ret (VAddr (bias o), o)
  | CallHasTLS => let '(r, o') := hasTLS o in Ret (VBool r, o')
  | CallGetArch => Ret (VArch (getArch o), o)
  | CallGetOpSys => Ret (VOpSys (getOpSys o), o)
  | CallEntryPoint => Ret (VAddr (entryPoint o), o)
  | CallMaxSegmentAddr => Ret (VAddr (maxSegmentAddr o), o)
  | CallMinSegmentAddr => Ret (VAddr (minSegmentAddr o), o)
  | CallContains addr => Ret (VBool (contains o addr), o)
  | CallSetLoadOffset val => Ret (VUnit, setLoadOffset o val)
  | CallSetLoadMask val => Ret (VUnit, setLoadMask o val)
  | CallAddSegment nm b d sz => Ret (VUnit, addSegment o nm b d sz)
  end.

(** A sequence of calls on one object, with the values returned. *)
Fixpoint callAll (ops : list Operation) (o : ObjectFile)
    : outcome (list Value * ObjectFile) :=
  match ops with
  | [] => Ret ([], o)
  | op :: rest =>
      r <- call op o ;;
      rs <- callAll rest (snd r) ;;
      Ret (fst r :: fst rs, snd rs)
  end.
End MemorySink.


(** ** Loader registry and dispatch *)

Section Dispatch.
(** [ProcessParams] and [Process] are only forward-declared; [World] stands
    for whatever a loader may touch while it runs (memory, symbol tables). *)
Variables ProcessParams Process World : Type.

(** [virtual Process *load(ProcessParams *params, ObjectFile *obj_file) = 0;]
    A loader that is not compatible returns [nullptr] ([None]), a compatible
    one returns the created process, any other error fails non-silently. *)
Record Loader : Type := mkLoader {
  load : ProcessParams -> ObjectFile -> World
         -> outcome (option Process * World)
}.

Inductive DispatchResult : Type :=
| Loaded (p : Process)
| NoCompatibleLoader
| LoaderFailed (msg : string).

(** Modelled from the spec: [static Process *tryLoaders(ProcessParams
    *params, ObjectFile *obj_file)] is declared in the header and defined
    elsewhere.  It offers the object file to the registered loaders in
    registration order, returns the process of the first one that accepts,
    and fails with no compatible loader when all decline; a loader error
    aborts the dispatch.  [idx] is the position of the next loader in the
    registry and [invoked] records the positions whose [load] was called. *)
Fixpoint tryLoaders_from (loaders : list Loader) (idx : nat)
    (params : ProcessParams) (obj_file : ObjectFile) (w : World)
    (invoked : list nat) : DispatchResult * World * list nat :=
  match loaders with
  | [] => (NoCompatibleLoader, w, invoked)
  | loader :: rest =>
      match load loader params obj_file w with
      | Ret (Some p, w') => (Loaded p, w', invoked ++ [idx])
      | Ret (None, w') =>
          tryLoaders_from rest (S idx) params obj_file w' (invoked ++ [idx])
      | Panic msg => (LoaderFailed msg, w, invoked ++ [idx])
      end
  end.

Definition tryLoaders (registry : list Loader) (params : ProcessParams)
    (obj_file : ObjectFile) (w : World)
    : DispatchResult * World * list nat :=
  tryLoaders_from registry 0%nat params obj_file w [].

(** [AllDecline loaders params obj w w']: offered in turn from [w], every
    loader of [loaders] declines, and the world ends as [w']. *)
Inductive AllDecline (params : ProcessParams) (obj_file : ObjectFile)
    : list Loader -> World -> World -> Prop :=
| AllDecline_nil w : AllDecline params obj_file [] w w
| AllDecline_cons loader rest w w1 w2 :
    load loader params obj_file w = Ret (None, w1) ->
    AllDecline params obj_file rest w1 w2 ->
    AllDecline params obj_file (loader :: rest) w w2.
End Dispatch.

Arguments Loaded {Process} p.
Arguments NoCompatibleLoader {Process}.
Arguments LoaderFailed {Process} msg.
Arguments mkLoader {ProcessParams Process World} load.
Arguments load {ProcessParams Process World} l params obj_file w.
Arguments tryLoaders {ProcessParams Process World} registry params obj_file w.
Arguments tryLoaders_from {ProcessParams Process World}
  loaders idx params obj_file w invoked.
Arguments AllDecline {ProcessParams Process World}
  params obj_file loaders w w'.

(** ** The factory *)

Section Factory.
Context `{AddrType}.

(** Modelled from the spec: a known format recognises its magic in the
    buffer and then attempts the full parse. *)
Record Format : Type := mkFormat {
  magicMatches : list byte -> bool;
  parse : string -> list byte -> option ObjectFile
}.

Inductive CreateResult : Type :=
| Created (o : ObjectFile)
| MalformedInput
| UnrecognizedFormat.

(** Modelled from the spec: the first format whose magic matches claims the
    file; a failing parse after a matching magic is a hard error; without
    any match the format is unrecognized. *)
Fixpoint detectFormat (formats : list Format) (fname : string)
    (bytes : list byte) : CreateResult :=
  match formats with
  | [] => UnrecognizedFormat
  | f :: rest =>
      if magicMatches f bytes then
        match parse f fname bytes with
        | Some o => Created o
        | None => MalformedInput
        end
      else detectFormat rest fname bytes
  end.

(** Modelled from the spec: the raw-blob object file has architecture and
    OS unknown and a single segment covering the whole buffer at base
    address 0.  The segment's diagnostic name is not fixed by the spec. *)
Definition rawObject (fname : string) (bytes : list byte) : ObjectFile :=
  let l := Z.of_nat (List.length bytes) in
  addSegment (newObjectFile fname l bytes UnknownArch UnknownOpSys)
             "data" 0 bytes l.

(** Modelled from the spec: [createObjectFile(identifier, rawBytes,
    rawFlag)]; the header declares [ObjectFile *createObjectFile(const
    std::string &fname, bool raw = false)], defined elsewhere.  [formats] is
    the list of known formats in their priority order. *)
Definition createObjectFile (formats : list Format) (fname : string)
    (bytes : list byte) (raw : bool) : CreateResult :=
  if raw then Created (rawObject fname bytes)
  else detectFormat formats fname bytes.
End Factory.

(** ** Concrete instances used to run the model *)

(** A 64-bit address type. *)
#[export] Instance Addr64 : AddrType :=
  {| addr_bits := 64; addr_bits_pos := eq_refl |}.

(** A sink that records the accepted writes and rejects every write whose
    range does not end at or below [limit]. *)
Definition RecMem : Type := list (Addr * list byte).

Definition recWrite (limit : Z) (mem : RecMem) (a : Addr) (bs : list byte)
    : bool * RecMem :=
  if a + Z.of_nat (List.length bs) <=? limit
  then (true, mem ++ [(a, bs)])
  else (false, mem).

(** The raw blob of three bytes. *)
Definition blobBytes : list byte := [x10; x20; x30].
Definition blobObject : ObjectFile := rawObject "blob.bin" blobBytes.

(** An object file of two segments, [text] at 0x1000 and [bss] at 0x3000. *)
Definition twoSegments : ObjectFile :=
  addSegment
    (addSegment (newObjectFile "a.out" 0 [] X86_64 Linux)
                "text" 4096 [x01; x02; x03; x04] 4)
    "bss" 12288 [x00; x00] 2.

(** A segment that starts two bytes below the top of the 64-bit address
    space and is four bytes long. *)
Definition topSegment : Segment :=
  {| name := "top"; base := 18446744073709551614;
     data := [x0a; x0b; x0c; x0d]; size := 4 |}.

Definition topObject : ObjectFile :=
  addSegment (newObjectFile "top.bin" 4 (data topSegment) Arm64 Linux)
             (name topSegment) (base topSegment) (data topSegment)
             (size topSegment).

(** [topObject] with one more segment: a single byte at the base of
    [topSegment]. *)
Definition overlapObject : ObjectFile :=
  addSegment topObject "low" 18446744073709551614 [xff] 1.

(** Instrumented loaders: a process is a number, the world is the list of
    the names of the loaders that ran. *)
Definition decliningLoader (nm : string) : Loader unit nat (list string) :=
  mkLoader (fun _ _ w => Ret (None, w ++ [nm])).

Definition acceptingLoader (nm : string) (p : nat)
    : Loader unit nat (list string) :=
  mkLoader (fun _ _ w => Ret (Some p, w ++ [nm])).

Definition registryABC : list (Loader unit nat (list string)) :=
  [decliningLoader "A"; acceptingLoader "B" 1%nat; acceptingLoader "C" 2%nat].

Definition registryDecline : list (Loader unit nat (list string)) :=
  [decliningLoader "A"; decliningLoader "B"].

(** An object file as the constructor leaves it, without segments. *)
Definition emptyObject : ObjectFile :=
  newObjectFile "empty" 0 [] UnknownArch UnknownOpSys.

Definition textSegment : Segment :=
  {| name := "text"; base := 4096; data := [x01; x02; x03; x04]; size := 4 |}.

Definition bssSegment : Segment :=
  {| name := "bss"; base := 12288; data := [x00; x00]; size := 2 |}.

(** A sequence of calls on a recording sink. *)
Definition exampleCalls : list (Operation RecMem) :=
  [CallSetLoadOffset RecMem 16; CallGetArch RecMem;
   CallAddSegment RecMem "text" 4096 [x01; x02; x03; x04] 4;
   CallLoadSegments RecMem []; CallSetLoadMask RecMem 4095;
   CallGetOpSys RecMem; CallContains RecMem 4097].

(** ** Reading a sequence of calls *)

Section CallSequences.
Variable Mem : Type.

(** The segment a call hands to [addSegment], if it is one. *)
Definition addedSegment (op : Operation Mem) : list Segment :=
  match op with
  | CallAddSegment _ nm b d sz =>
      [{| name := nm; base := b; data := d; size := sz |}]
  | _ => []
  end.

Definition addedSegments (ops : list (Operation Mem)) : list Segment :=
  flat_map addedSegment ops.

(** The value [loadOffset] holds after the calls: the argument of the last
    [setLoadOffset], or the initial value. *)
Definition lastLoadOffset (ops : list (Operation Mem)) (init : Addr) : Addr :=
  fold_left (fun acc op =>
               match op with
               | CallSetLoadOffset _ val => val
               | _ => acc
               end) ops init.

Definition lastLoadMask (ops : list (Operation Mem)) (init : Addr) : Addr :=
  fold_left (fun acc op =>
               match op with
               | CallSetLoadMask _ val => val
               | _ => acc
               end) ops init.

(** The calls whose base-class body is a [panic]. *)
Definition panicking (op : Operation Mem) : bool :=
  match op with
  | CallMapSize _ => true
  | CallUpdateBias _ _ => true
  | _ => false
  end.
End CallSequences.

Arguments addedSegment {Mem} op.
Arguments addedSegments {Mem} ops.
Arguments lastLoadOffset {Mem} ops init.
Arguments lastLoadMask {Mem} ops init.
Arguments panicking {Mem} op.

(** ** The fast-model GIC wrapper ([arch/arm/fastmodel/GIC/gic.hh]) *)

Section FastModelGIC.
(** [scx_evs_GIC] is the exported fast-model class, which is not part of
    the sources: its two callbacks are parameters, acting on the state [S]
    of the simulated subsystem. *)
Variable S : Type.
Variable scx_evs_GIC_end_of_elaboration : S -> S.
Variable scx_evs_GIC_start_of_simulation : S -> S.

(** [void end_of_elaboration() override {
      scx_evs_GIC::end_of_elaboration();
      scx_evs_GIC::start_of_simulation(); }] *)
Definition SCGIC_end_of_elaboration (s : S) : S :=
  scx_evs_GIC_start_of_simulation (scx_evs_GIC_end_of_elaboration s).

(** [void start_of_simulation() override {}] *)
Definition SCGIC_start_of_simulation (s : S) : S := s.
End FastModelGIC.

(** ** Address arithmetic *)

Section AddressFacts.
Context `{AddrType}.

Lemma modulus_pos : 0 < modulus.
Proof.
  unfold modulus. apply Z.pow_pos_nonneg; [lia | ].
  pose proof addr_bits_pos. lia.
Qed.

Lemma modulus_ge_2 : 2 <= modulus.
Proof.
  unfold modulus. pose proof addr_bits_pos as Hw.
  replace addr_bits with (Z.succ (addr_bits - 1)) by lia.
  rewrite Z.pow_succ_r by lia.
  assert (0 < 2 ^ (addr_bits - 1)) by (apply Z.pow_pos_nonneg; lia).
  lia.
Qed.

Lemma maxAddr_all_ones : maxAddr = Z.ones addr_bits.
Proof.
  unfold maxAddr, modulus. rewrite Z.ones_equiv. lia.
Qed.

Lemma wrap_range (x : Z) : 0 <= wrap x <= maxAddr.
Proof.
  unfold wrap, maxAddr. pose proof (Z.mod_pos_bound x modulus modulus_pos). lia.
Qed.

Lemma wrap_small (x : Z) : 0 <= x <= maxAddr -> wrap x = x.
Proof.
  unfold wrap, maxAddr. intros Hx. apply Z.mod_small. lia.
Qed.

Lemma wrap_once (x : Z) :
  modulus <= x < 2 * modulus -> wrap x = x - modulus.
Proof.
  intros Hx. unfold wrap. symmetry.
  apply (Z.mod_unique_pos x modulus 1 (x - modulus)); lia.
Qed.

Lemma is_addr_spec (x : Z) : is_addr x = true <-> 0 <= x <= maxAddr.
Proof.
  unfold is_addr. rewrite andb_true_iff, !Z.leb_le. tauto.
Qed.

Lemma wf_segment_spec (seg : Segment) :
  wf_segment seg = true <->
  (0 <= base seg <= maxAddr) /\ (0 <= size seg <= maxAddr).
Proof.
  unfold wf_segment. rewrite andb_true_iff, !is_addr_spec. tauto.
Qed.
End AddressFacts.

(** ** Address-range queries *)

Section RangeQueries.
Context `{AddrType}.

Lemma maxSegmentAddr_loop_ge_acc (segs : list Segment) (max : Addr) :
  max <= maxSegmentAddr_loop segs max.
Proof.
  revert max. induction segs as [ | seg rest IH]; intros max; simpl.
  - lia.
  - specialize (IH (if segmentEnd seg >? max then segmentEnd seg else max)).
    rewrite Z.gtb_ltb in *.
    destruct (Z.ltb_spec max (segmentEnd seg)); lia.
Qed.

Lemma maxSegmentAddr_loop_ge_end (segs : list Segment) (max : Addr)
    (seg : Segment) :
  In seg segs -> segmentEnd seg <= maxSegmentAddr_loop segs max.
Proof.
  revert max. induction segs as [ | s rest IH]; intros max Hin; simpl.
  - contradiction.
  - destruct Hin as [-> | Hin].
    + pose proof (maxSegmentAddr_loop_ge_acc rest
                    (if segmentEnd seg >? max then segmentEnd seg else max))
        as Hacc.
      rewrite Z.gtb_ltb in *.
      destruct (Z.ltb_spec max (segmentEnd seg)); lia.
    + apply IH, Hin.
Qed.

Lemma maxSegmentAddr_loop_attained (segs : list Segment) (max : Addr) :
  maxSegmentAddr_loop segs max = max \/
  exists seg, In seg segs /\ maxSegmentAddr_loop segs max = segmentEnd seg.
Proof.
  revert max. induction segs as [ | s rest IH]; intros max; simpl.
  - now left.
  - destruct (IH (if segmentEnd s >? max then segmentEnd s else max))
      as [Heq | (seg & Hin & Heq)].
    + rewrite Heq. destruct (segmentEnd s >? max).
      * right. exists s. auto.
      * now left.
    + right. exists seg. auto.
Qed.

Lemma minSegmentAddr_loop_le_acc (segs : list Segment) (min : Addr) :
  minSegmentAddr_loop segs min <= min.
Proof.
  revert min. induction segs as [ | seg rest IH]; intros min; simpl.
  - lia.
  - specialize (IH (if base seg <? min then base seg else min)).
    destruct (Z.ltb_spec (base seg) min); lia.
Qed.

Lemma minSegmentAddr_loop_le_base (segs : list Segment) (min : Addr)
    (seg : Segment) :
  In seg segs -> minSegmentAddr_loop segs min <= base seg.
Proof.
  revert min. induction segs as [ | s rest IH]; intros min Hin; simpl.
  - contradiction.
  - destruct Hin as [-> | Hin].
    + pose proof (minSegmentAddr_loop_le_acc rest
                    (if base seg <? min then base seg else min)) as Hacc.
      destruct (Z.ltb_spec (base seg) min); lia.
    + apply IH, Hin.
Qed.

(** The test [addr >= start && addr < end] of one segment. *)
Lemma segment_test_spec (seg : Segment) (addr : Addr) :
  (addr >=? base seg) && (addr <? segmentEnd seg) = true <->
  base seg <= addr < segmentEnd seg.
Proof.
  rewrite andb_true_iff, Z.geb_leb, Z.leb_le, Z.ltb_lt. tauto.
Qed.

Lemma contains_loop_iff (segs : list Segment) (addr : Addr) :
  contains_loop segs addr = true <->
  exists seg, In seg segs /\ base seg <= addr < segmentEnd seg.
Proof.
  induction segs as [ | s rest IH]; simpl.
  - split; [discriminate | intros (seg & [] & _)].
  - destruct ((addr >=? base s) && (addr <? segmentEnd s)) eqn:Htest.
    + split; [intros _ | reflexivity].
      exists s. split; [now left | now apply segment_test_spec].
    + rewrite IH. split.
      * intros (seg & Hin & Hr). exists seg. auto.
      * intros (seg & [-> | Hin] & Hr).
        -- apply segment_test_spec in Hr. congruence.
        -- exists seg. auto.
Qed.

(** The end of a segment that passes the top of the address space. *)
Lemma segmentEnd_overflow (seg : Segment) :
  wf_segment seg = true ->
  maxAddr < base seg + size seg ->
  segmentEnd seg = base seg + size seg - modulus /\ segmentEnd seg < base seg.
Proof.
  intros Hwf Hover. apply wf_segment_spec in Hwf.
  unfold segmentEnd, maxAddr in *.
  rewrite wrap_once by lia. lia.
Qed.

Lemma segmentEnd_fits (seg : Segment) :
  is_addr (base seg + size seg) = true ->
  segmentEnd seg = base seg + size seg.
Proof.
  intros Hfit. apply is_addr_spec in Hfit. now apply wrap_small.
Qed.
End RangeQueries.

Section RangeQueryClaims.
Context `{AddrType}.


(** C5 (amended).  For every object file and every one of its segments,
    [minSegmentAddr() <= base] and [(base + size) mod 2^w <=
    maxSegmentAddr()]; for a segment whose [base + size] does not pass the
    maximum address this is [base + size <= maxSegmentAddr()].  Load offset
    and load mask play no part. *)
Theorem segment_bounding_box (o : ObjectFile) (seg : Segment) :
  In seg (segments o) ->
  minSegmentAddr o <= base seg
  /\ (base seg + size seg) mod 2 ^ addr_bits <= maxSegmentAddr o
  /\ (endFits seg = true -> base seg + size seg <= maxSegmentAddr o)
  /\ (forall off mask : Addr,
        minSegmentAddr (setLoadMask (setLoadOffset o off) mask)
        = minSegmentAddr o
        /\ maxSegmentAddr (setLoadMask (setLoadOffset o off) mask)
           = maxSegmentAddr o).
Proof.
  intros Hin. split; [ | split; [ | split]].
  - now apply minSegmentAddr_loop_le_base.
  - now apply (maxSegmentAddr_loop_ge_end (segments o) 0 seg).
  - intros Hfit. rewrite <- (segmentEnd_fits seg Hfit).
    now apply maxSegmentAddr_loop_ge_end.
  - intros off mask. split; reflexivity.
Qed.

(** C9.  For an object file without segments, [minSegmentAddr()] is the
    maximum address (all ones), [maxSegmentAddr()] is 0, so the former
    exceeds the latter, and [contains] is false at every address. *)
Theorem empty_object_queries (o : ObjectFile) :
  segments o = [] ->
  minSegmentAddr o = maxAddr
  /\ maxAddr = Z.ones addr_bits
  /\ maxAddr = 2 ^ addr_bits - 1
  /\ maxSegmentAddr o = 0
  /\ minSegmentAddr o > maxSegmentAddr o
  /\ (forall addr : Addr, contains o addr = false).
Proof.
  intros Hnil. unfold minSegmentAddr, maxSegmentAddr, contains.
  rewrite Hnil. simpl.
  repeat split.
  - apply maxAddr_all_ones.
  - pose proof modulus_ge_2. unfold maxAddr. lia.
Qed.

(** C10 (amended).  [maxSegmentAddr] and [contains] take a segment's end
    as [(base + size) mod 2^w]: [maxSegmentAddr()] is the greatest of 0 and
    the wrapped ends, and [contains addr] tests [base <= addr < wrapped
    end].  For a segment whose true [base + size] exceeds the maximum
    address the wrapped end is [base + size - 2^w], smaller than [base];
    [maxSegmentAddr()] is at least this wrapped end, below the true end,
    and equal to the wrapped end when there is no other segment.  The test
    of that segment fails at every address [addr] with [base <= addr]:
    there [contains addr] is true exactly when another segment's range
    holds [addr], and false when there is none. *)
Theorem overflowing_segment_never_matches (o : ObjectFile) :
  ((forall seg, In seg (segments o) ->
      (base seg + size seg) mod 2 ^ addr_bits <= maxSegmentAddr o)
   /\ (maxSegmentAddr o = 0 \/
       exists seg, In seg (segments o) /\
                   maxSegmentAddr o = (base seg + size seg) mod 2 ^ addr_bits))
  /\ (forall addr : Addr,
        contains o addr = true <->
        exists seg, In seg (segments o) /\
                    base seg <= addr < (base seg + size seg) mod 2 ^ addr_bits)
  /\ (forall seg : Segment,
        In seg (segments o) ->
        wf_segment seg = true ->
        maxAddr < base seg + size seg ->
        (base seg + size seg) mod 2 ^ addr_bits
          = base seg + size seg - 2 ^ addr_bits
        /\ (base seg + size seg) mod 2 ^ addr_bits < base seg
        /\ base seg + size seg - 2 ^ addr_bits <= maxSegmentAddr o
        /\ maxSegmentAddr o < base seg + size seg
        /\ ((forall seg', In seg' (segments o) -> seg' = seg) ->
            maxSegmentAddr o = base seg + size seg - 2 ^ addr_bits)
        /\ (forall addr : Addr,
              base seg <= addr ->
              (contains o addr = true <->
               exists seg', In seg' (segments o) /\ seg' <> seg /\
                 base seg' <= addr
                   < (base seg' + size seg') mod 2 ^ addr_bits)
              /\ ((forall seg', In seg' (segments o) -> seg' = seg) ->
                  contains o addr = false))).
Proof.
  assert (Hub : forall seg, In seg (segments o) ->
                  segmentEnd seg <= maxSegmentAddr o)
    by (intros seg; apply maxSegmentAddr_loop_ge_end).
  pose proof (maxSegmentAddr_loop_attained (segments o) 0) as Hatt.
  fold (maxSegmentAddr o) in Hatt.
  split; [split; [exact Hub | exact Hatt] | split].
  - intros addr. apply contains_loop_iff.
  - intros seg Hin Hwf Hover.
    destruct (segmentEnd_overflow seg Hwf Hover) as [Hend Hlt].
    pose proof (Hub seg Hin) as Hseg.
    pose proof (wrap_range (base seg + size seg)) as Hrange.
    fold (segmentEnd seg) in Hrange.
    assert (Hle : maxSegmentAddr o <= maxAddr).
    { destruct Hatt as [-> | (seg' & _ & ->)].
      - lia.
      - apply (wrap_range (base seg' + size seg')). }
    unfold modulus in Hend.
    change ((base seg + size seg) mod 2 ^ addr_bits) with (segmentEnd seg).
    split; [exact Hend | split; [exact Hlt | ]].
    split; [lia | split; [lia | split]].
    + intros Honly.
      destruct Hatt as [Hzero | (seg' & Hin' & Heq)].
      * lia.
      * rewrite (Honly seg' Hin') in Heq.
        change ((base seg + size seg) mod 2 ^ addr_bits)
          with (segmentEnd seg) in Heq. lia.
    + intros addr Hge.
      assert (Hiff : contains o addr = true <->
                     exists seg', In seg' (segments o) /\ seg' <> seg /\
                       base seg' <= addr < segmentEnd seg').
      { unfold contains. rewrite contains_loop_iff. split.
        - intros (seg' & Hin' & Hr). exists seg'.
          split; [exact Hin' | split; [ | exact Hr]].
          intros ->. lia.
        - intros (seg' & Hin' & _ & Hr). exists seg'. auto. }
      split; [exact Hiff | ].
      intros Honly. destruct (contains o addr) eqn:Hc; [ | reflexivity].
      destruct (proj1 Hiff eq_refl) as (seg' & Hin' & Hne & _).
      now elim Hne; apply Honly.
Qed.
End RangeQueryClaims.

(** ** Loading segments and the operations of the class *)

Section SinkFacts.
Context `{AddrType}.
Variable Mem : Type.
Variable write : Mem -> Addr -> list byte -> bool * Mem.

Lemma loadSegments_loop_returns (o : ObjectFile) (segs : list Segment)
    (mem : Mem) :
  returns (loadSegments_loop Mem write o segs mem) = true.
Proof.
  revert mem. induction segs as [ | seg rest IH]; intros mem; simpl.
  - reflexivity.
  - destruct (fst (write mem (loadAddr o (base seg)) (segmentBytes seg))).
    + apply IH.
    + reflexivity.
Qed.

Lemma AllWritten_nil_inv (mem mem' : Mem) :
  AllWritten Mem write mem [] mem' -> mem' = mem.
Proof. intros Hall. now inversion Hall. Qed.

Lemma AllWritten_cons_inv (mem mem' : Mem) (a : Addr) (bs : list byte)
    (ws : list (Addr * list byte)) :
  AllWritten Mem write mem ((a, bs) :: ws) mem' ->
  exists mem1, write mem a bs = (true, mem1)
               /\ AllWritten Mem write mem1 ws mem'.
Proof. intros Hall. inversion Hall; subst. eauto. Qed.

Lemma loadSegments_loop_accepted (o : ObjectFile) (segs : list Segment)
    (mem mem' : Mem) :
  AllWritten Mem write mem (map (segmentWrite o) segs) mem' ->
  loadSegments_loop Mem write o segs mem = Ret (true, mem').
Proof.
  revert mem. induction segs as [ | seg rest IH]; intros mem Hall; simpl in *.
  - now rewrite (AllWritten_nil_inv _ _ Hall).
  - apply AllWritten_cons_inv in Hall. destruct Hall as (mem1 & Hw & Hall).
    unfold loadAddr. rewrite Hw. simpl. now apply IH.
Qed.

Lemma loadSegments_loop_rejected (o : ObjectFile)
    (pre : list Segment) (seg : Segment) (post : list Segment)
    (mem mem1 mem2 : Mem) :
  AllWritten Mem write mem (map (segmentWrite o) pre) mem1 ->
  write mem1 (loadAddr o (base seg)) (segmentBytes seg) = (false, mem2) ->
  loadSegments_loop Mem write o (pre ++ seg :: post) mem = Ret (false, mem2).
Proof.
  revert mem. induction pre as [ | s pre IH]; intros mem Hall Hrej;
    simpl in *.
  - rewrite (AllWritten_nil_inv _ _ Hall) in Hrej. now rewrite Hrej.
  - apply AllWritten_cons_inv in Hall. destruct Hall as (m & Hw & Hall).
    unfold loadAddr. rewrite Hw. simpl. now apply IH.
Qed.

Lemma loadSegments_loop_inv (o : ObjectFile) (segs : list Segment)
    (mem : Mem) (b : bool) (mem' : Mem) :
  loadSegments_loop Mem write o segs mem = Ret (b, mem') ->
  if b then AllWritten Mem write mem (map (segmentWrite o) segs) mem'
  else exists pre seg post mem1,
         segs = pre ++ seg :: post
         /\ AllWritten Mem write mem (map (segmentWrite o) pre) mem1
         /\ write mem1 (loadAddr o (base seg)) (segmentBytes seg)
            = (false, mem').
Proof.
  revert mem. induction segs as [ | seg rest IH]; intros mem Hrun; simpl in *.
  - injection Hrun as <- <-. constructor.
  - destruct (write mem (loadAddr o (base seg)) (segmentBytes seg))
      as [ok mem1] eqn:Hw.
    destruct ok; simpl in Hrun.
    + specialize (IH mem1 Hrun). destruct b.
      * econstructor; eauto.
      * destruct IH as (pre & s & post & m1 & -> & Hall & Hrej).
        exists (seg :: pre), s, post, m1. repeat split; auto.
        simpl. econstructor; eauto.
    + injection Hrun as <- <-.
      exists [], seg, rest, mem. repeat split; auto. constructor.
Qed.

Lemma call_keeps_tags (op : Operation Mem) (o : ObjectFile) (v : Value)
    (o' : ObjectFile) :
  call Mem write op o = Ret (v, o') ->
  arch o' = arch o /\ opSys o' = opSys o.
Proof.
  destruct op; simpl; intros Hcall;
    try discriminate;
    try (injection Hcall as <- <-; now split).
  destruct (loadSegments Mem write o mem) as [[ok m] | msg]; simpl in Hcall;
    [injection Hcall as <- <-; now split | discriminate].
Qed.

Lemma callAll_keeps_tags (ops : list (Operation Mem)) (o : ObjectFile)
    (vals : list Value) (o' : ObjectFile) :
  callAll Mem write ops o = Ret (vals, o') ->
  arch o' = arch o /\ opSys o' = opSys o
  /\ (forall i, nth_error ops i = Some (CallGetArch Mem) ->
                nth_error vals i = Some (VArch (arch o)))
  /\ (forall i, nth_error ops i = Some (CallGetOpSys Mem) ->
                nth_error vals i = Some (VOpSys (opSys o))).
Proof.
  revert o vals. induction ops as [ | op rest IH]; intros o vals Hrun;
    simpl in Hrun.
  - injection Hrun as <- <-. repeat split; intros [ | i]; discriminate.
  - destruct (call Mem write op o) as [[v o1] | msg] eqn:Hcall;
      simpl in Hrun; [ | discriminate].
    destruct (callAll Mem write rest o1) as [[vs o2] | msg] eqn:Hrest;
      simpl in Hrun; [ | discriminate].
    injection Hrun as <- <-.
    destruct (call_keeps_tags op o v o1 Hcall) as [Ha Hos].
    destruct (IH o1 vs Hrest) as (Ha' & Hos' & Hga & Hgo).
    rewrite Ha in *. rewrite Hos in *.
    repeat split; auto.
    + intros [ | i] Hnth; simpl in *; [ | now apply Hga].
      injection Hnth as ->. simpl in Hcall. now injection Hcall as <- _.
    + intros [ | i] Hnth; simpl in *; [ | now apply Hgo].
      injection Hnth as ->. simpl in Hcall. now injection Hcall as <- _.
Qed.
End SinkFacts.

Section ObjectFileClaims.
Context `{AddrType}.
Variable Mem : Type.
Variable write : Mem -> Addr -> list byte -> bool * Mem.

(** C1.  For every object file and every memory sink, [loadSegments]
    returns a success or failure result and never panics.  It succeeds
    exactly when the sink accepts, in order, the write of each segment's
    bytes at [(base + loadOffset) & loadMask], and the sink is then left as
    these writes leave it; a segment whose write the sink rejects, after
    the segments before it were written, makes the call return failure. *)
Theorem loadSegments_contract (o : ObjectFile) (mem : Mem) :
  returns (loadSegments Mem write o mem) = true
  /\ (forall mem',
        loadSegments Mem write o mem = Ret (true, mem') <->
        AllWritten Mem write mem (map (segmentWrite o) (segments o)) mem')
  /\ (forall mem',
        loadSegments Mem write o mem = Ret (false, mem') <->
        exists pre seg post mem1,
          segments o = pre ++ seg :: post
          /\ AllWritten Mem write mem (map (segmentWrite o) pre) mem1
          /\ write mem1
               (Z.land ((base seg + loadOffset o) mod 2 ^ addr_bits)
                       (loadMask o))
               (segmentBytes seg) = (false, mem')).
Proof.
  unfold loadSegments. split; [ | split].
  - apply loadSegments_loop_returns.
  - intros mem'. split.
    + apply (loadSegments_loop_inv Mem write o (segments o) mem true mem').
    + apply loadSegments_loop_accepted.
  - intros mem'. split.
    + apply (loadSegments_loop_inv Mem write o (segments o) mem false mem').
    + intros (pre & seg & post & mem1 & -> & Hall & Hrej).
      now apply (loadSegments_loop_rejected Mem write o pre seg post mem mem1).
Qed.

(** C3.  In the base class [relocatable()] is false, and [mapSize()] and
    [updateBias()] panic: neither returns a value or an error result, and
    a sequence of calls that reaches one of them ends there. *)
Theorem relocatable_only_operations_panic (o : ObjectFile)
    (bias_addr : Addr) :
  relocatable o = false
  /\ (exists msg, mapSize o = Panic msg)
  /\ (exists msg, updateBias o bias_addr = Panic msg)
  /\ (forall a : Addr, mapSize o <> Ret a)
  /\ (forall o' : ObjectFile, updateBias o bias_addr <> Ret o')
  /\ (forall ops : list (Operation Mem),
        returns (callAll Mem write (CallMapSize Mem :: ops) o) = false
        /\ returns (callAll Mem write (CallUpdateBias Mem bias_addr :: ops) o)
           = false).
Proof.
  repeat split; try discriminate; unfold mapSize, updateBias; eauto.
Qed.

(** C7.  The base-class [loadWeakSymbols] returns false, inserts nothing
    into the symbol table it is given and leaves the object file as it
    was. *)
Theorem loadWeakSymbols_not_supported (o : ObjectFile)
    (symtab : SymbolTable) (base_ offset mask : Addr) :
  loadWeakSymbols o symtab base_ offset mask = (false, symtab, o).
Proof. reflexivity. Qed.

(** C8.  No operation of the class changes the architecture or OS tag, and
    after any sequence of operations on a freshly constructed object file
    [getArch()] and [getOpSys()] return the constructor's arguments, as
    does every such call within the sequence. *)
Theorem tags_fixed_at_construction :
  (forall (op : Operation Mem) (o : ObjectFile) (v : Value)
          (o' : ObjectFile),
      call Mem write op o = Ret (v, o') ->
      getArch o' = getArch o /\ getOpSys o' = getOpSys o)
  /\ (forall (fname : string) (l : Z) (d : list byte) (a : Arch)
             (os : OpSys) (ops : list (Operation Mem))
             (vals : list Value) (o' : ObjectFile),
        callAll Mem write ops (newObjectFile fname l d a os)
          = Ret (vals, o') ->
        getArch o' = a /\ getOpSys o' = os
        /\ call Mem write (CallGetArch Mem) o' = Ret (VArch a, o')
        /\ call Mem write (CallGetOpSys Mem) o' = Ret (VOpSys os, o')
        /\ (forall i, nth_error ops i = Some (CallGetArch Mem) ->
                      nth_error vals i = Some (VArch a))
        /\ (forall i, nth_error ops i = Some (CallGetOpSys Mem) ->
                      nth_error vals i = Some (VOpSys os))).
Proof.
  split.
  - intros op o v o' Hcall. now apply (call_keeps_tags Mem write op o v).
  - intros fname l d a os ops vals o' Hrun.
    destruct (callAll_keeps_tags Mem write ops _ vals o' Hrun)
      as (Ha & Hos & Hga & Hgo).
    simpl in *. unfold getArch, getOpSys. rewrite Ha, Hos.
    repeat split; assumption.
Qed.
End ObjectFileClaims.

(** ** Dispatch and factory *)

Section DispatchClaims.
Variables ProcessParams Process World : Type.
Variable params : ProcessParams.
Variable obj_file : ObjectFile.

Lemma tryLoaders_from_declined (pre rest : list (Loader ProcessParams Process World))
    (idx : nat) (w w1 : World) (invoked : list nat) :
  AllDecline params obj_file pre w w1 ->
  tryLoaders_from (pre ++ rest) idx params obj_file w invoked
  = tryLoaders_from rest (idx + List.length pre) params obj_file w1
      (invoked ++ seq idx (List.length pre)).
Proof.
  intros Hdec. revert idx invoked.
  induction Hdec as [w | loader pre w w1 w2 Hload Hdec IH];
    intros idx invoked; simpl.
  - now rewrite Nat.add_0_r, app_nil_r.
  - rewrite Hload, IH, <- app_assoc. simpl.
    now rewrite Nat.add_succ_r.
Qed.

Lemma tryLoaders_from_invoked
    (loaders : list (Loader ProcessParams Process World))
    (idx : nat) (w : World) (invoked : list nat) :
  exists k, (k <= List.length loaders)%nat
            /\ snd (tryLoaders_from loaders idx params obj_file w invoked)
               = invoked ++ seq idx k.
Proof.
  revert idx w invoked.
  induction loaders as [ | loader rest IH]; intros idx w invoked; simpl.
  - exists 0%nat. split; [lia | now rewrite app_nil_r].
  - destruct (load loader params obj_file w) as [[[p | ] w'] | msg].
    + exists 1%nat. split; [lia | reflexivity].
    + destruct (IH (S idx) w' (invoked ++ [idx])) as (k & Hk & Htr).
      exists (S k). split; [lia | ].
      rewrite Htr, <- app_assoc. reflexivity.
    + exists 1%nat. split; [lia | reflexivity].
Qed.

(** C2.  [tryLoaders] calls [load] on the registered loaders in
    registration order: the loaders invoked are always the first ones of
    the registry, each once and in order.  When the loaders before some loader all decline
    and that loader accepts, its process is returned and no later loader
    is invoked; when every loader declines the call fails with no
    compatible loader. *)
Theorem tryLoaders_first_compatible :
  (forall (pre : list (Loader ProcessParams Process World))
          (loader : Loader ProcessParams Process World)
          (post : list (Loader ProcessParams Process World))
          (w w1 w2 : World) (p : Process),
      AllDecline params obj_file pre w w1 ->
      load loader params obj_file w1 = Ret (Some p, w2) ->
      tryLoaders (pre ++ loader :: post) params obj_file w
      = (Loaded p, w2, seq 0 (S (List.length pre))))
  /\ (forall (registry : list (Loader ProcessParams Process World))
             (w w1 : World),
        AllDecline params obj_file registry w w1 ->
        tryLoaders registry params obj_file w
        = (NoCompatibleLoader, w1, seq 0 (List.length registry)))
  /\ (forall (registry : list (Loader ProcessParams Process World))
             (w : World),
        exists k, (k <= List.length registry)%nat
                  /\ snd (tryLoaders registry params obj_file w) = seq 0 k).
Proof.
  unfold tryLoaders. split; [ | split].
  3: { intros registry w. apply (tryLoaders_from_invoked registry 0 w []). }
  - intros pre loader post w w1 w2 p Hdec Hacc.
    rewrite (tryLoaders_from_declined pre (loader :: post) 0 w w1 [] Hdec).
    rewrite seq_S. simpl. now rewrite Hacc.
  - intros registry w w1 Hdec.
    rewrite <- (app_nil_r registry) at 1.
    rewrite (tryLoaders_from_declined registry [] 0 w w1 [] Hdec).
    reflexivity.
Qed.
End DispatchClaims.

Section FactoryClaims.
Context `{AddrType}.

(** C6.  With the raw-blob flag set, [createObjectFile] yields, whatever
    the known formats are, an object file with architecture and OS unknown
    and exactly one segment, whose base is 0, whose size is the length of
    the input and whose bytes are the input. *)
Theorem createObjectFile_raw (formats : list Format) (fname : string)
    (bytes : list byte) :
  exists (o : ObjectFile) (seg : Segment),
    createObjectFile formats fname bytes true = Created o
    /\ (forall formats' : list Format,
          createObjectFile formats' fname bytes true = Created o)
    /\ getArch o = UnknownArch
    /\ getOpSys o = UnknownOpSys
    /\ segments o = [seg]
    /\ base seg = 0
    /\ size seg = Z.of_nat (List.length bytes)
    /\ segmentBytes seg = bytes.
Proof.
  exists (rawObject fname bytes).
  eexists. simpl. repeat split.
  unfold segmentBytes. simpl.
  rewrite Nat2Z.id. apply firstn_all.
Qed.
End FactoryClaims.

(** ** The claims at concrete inputs *)

Example raw_blob_scenario :
  createObjectFile [] "blob.bin" blobBytes true = Created blobObject
  /\ segments blobObject
     = [{| name := "data"; base := 0; data := blobBytes; size := 3 |}]
  /\ loadSegments RecMem (recWrite 8192) blobObject []
     = Ret (true, [(0, [x10; x20; x30])]).
Proof. repeat split. Qed.

Example twoSegments_queries :
  minSegmentAddr twoSegments = 4096
  /\ maxSegmentAddr twoSegments = 12290
  /\ contains twoSegments 4099 = true
  /\ contains twoSegments 4100 = false.
Proof. repeat split. Qed.

Example topObject_queries :
  minSegmentAddr topObject = 18446744073709551614
  /\ maxSegmentAddr topObject = 2
  /\ contains topObject 18446744073709551614 = false
  /\ contains topObject 1 = false.
Proof. repeat split. Qed.

Lemma loadSegments_contract_witness :
  loadSegments RecMem (recWrite 8192) blobObject []
    = Ret (true, [(0, blobBytes)])
  /\ loadSegments RecMem (recWrite 8192) twoSegments []
     = Ret (false, [(4096, data textSegment)]).
Proof.
  split.
  - apply (proj2 (proj1 (proj2
             (loadSegments_contract RecMem (recWrite 8192) blobObject [])) _)).
    vm_compute.
    eapply AllWritten_cons; [reflexivity | apply AllWritten_nil].
  - apply (proj2 (proj2 (proj2
             (loadSegments_contract RecMem (recWrite 8192) twoSegments [])) _)).
    exists [textSegment], bssSegment, [], [(4096, data textSegment)].
    split; [reflexivity | split; [ | reflexivity]].
    vm_compute.
    eapply AllWritten_cons; [reflexivity | apply AllWritten_nil].
Defined.

Lemma tryLoaders_first_compatible_witness :
  tryLoaders registryABC tt blobObject []
    = (Loaded 1%nat, ["A"; "B"]%string, [0; 1]%nat)
  /\ tryLoaders registryDecline tt blobObject []
     = (NoCompatibleLoader, ["A"; "B"]%string, [0; 1]%nat).
Proof.
  split.
  - apply (proj1 (tryLoaders_first_compatible unit nat (list string)
                    tt blobObject)
             [decliningLoader "A"] (acceptingLoader "B" 1%nat)
             [acceptingLoader "C" 2%nat] [] ["A"%string]
             ["A"; "B"]%string 1%nat).
    + eapply AllDecline_cons; [reflexivity | apply AllDecline_nil].
    + reflexivity.
  - apply (proj1 (proj2 (tryLoaders_first_compatible unit nat (list string)
                           tt blobObject))
             registryDecline [] ["A"; "B"]%string).
    eapply AllDecline_cons; [reflexivity | ].
    eapply AllDecline_cons; [reflexivity | apply AllDecline_nil].
Defined.

Lemma relocatable_only_operations_panic_witness :
  relocatable topObject = false
  /\ returns (mapSize topObject) = false
  /\ returns (callAll RecMem (recWrite 8192)
                [CallUpdateBias RecMem 4096; CallGetArch RecMem] topObject)
     = false.
Proof.
  pose proof (relocatable_only_operations_panic RecMem (recWrite 8192)
                topObject 4096) as (Hrel & [msg Hmap] & _ & _ & _ & Hseq).
  split; [exact Hrel | split].
  - rewrite Hmap. reflexivity.
  - exact (proj2 (Hseq [CallGetArch RecMem])).
Defined.


Lemma segment_bounding_box_witness :
  In textSegment (segments twoSegments)
  /\ minSegmentAddr twoSegments <= 4096
  /\ 4100 <= maxSegmentAddr twoSegments.
Proof.
  assert (Hin : In textSegment (segments twoSegments)) by (left; reflexivity).
  destruct (segment_bounding_box twoSegments textSegment Hin)
    as (Hmin & _ & Hfit & _).
  split; [exact Hin | split; [exact Hmin | exact (Hfit eq_refl)]].
Defined.

Lemma tags_fixed_at_construction_witness :
  exists vals o',
    callAll RecMem (recWrite 8192) exampleCalls
      (newObjectFile "a.out" 0 [] X86_64 Linux) = Ret (vals, o')
    /\ getArch o' = X86_64 /\ getOpSys o' = Linux
    /\ nth_error vals 1 = Some (VArch X86_64).
Proof.
  eexists. eexists. split; [reflexivity | ].
  refine (let T := proj2 (tags_fixed_at_construction RecMem (recWrite 8192))
                     "a.out"%string 0 [] X86_64 Linux exampleCalls _ _ eq_refl
          in _).
  destruct T as (Ha & Hos & _ & _ & Hga & _).
  split; [exact Ha | split; [exact Hos | exact (Hga 1%nat eq_refl)]].
Defined.

Lemma empty_object_queries_witness :
  minSegmentAddr emptyObject = 18446744073709551615
  /\ maxSegmentAddr emptyObject = 0
  /\ contains emptyObject 4096 = false.
Proof.
  destruct (empty_object_queries emptyObject eq_refl)
    as (Hmin & _ & _ & Hmax & _ & Hcont).
  split; [exact Hmin | split; [exact Hmax | exact (Hcont 4096)]].
Defined.

Lemma overflowing_segment_never_matches_witness :
  (base topSegment + size topSegment) mod 2 ^ 64 = 2
  /\ maxSegmentAddr topObject = 2
  /\ maxSegmentAddr topObject < base topSegment + size topSegment
  /\ contains topObject 18446744073709551615 = false.
Proof.
  assert (Hin : In topSegment (segments topObject)) by (left; reflexivity).
  assert (Hover : maxAddr < base topSegment + size topSegment)
    by reflexivity.
  assert (Hwf : wf_segment topSegment = true) by reflexivity.
  assert (Honly : forall seg', In seg' (segments topObject) ->
                    seg' = topSegment)
    by (intros seg' [<- | []]; reflexivity).
  destruct (proj2 (proj2 (overflowing_segment_never_matches topObject))
              topSegment Hin Hwf Hover)
    as (Hend & _ & _ & Hbelow & Hmax & Haddr).
  split; [exact Hend | split; [exact (Hmax Honly) | split; [exact Hbelow | ]]].
  apply (Haddr 18446744073709551615).
  - discriminate.
  - exact Honly.
Defined.

(** ** Where the claims as first stated fail *)


(** C5 as stated fails: [base + size] of [topSegment] is above
    [maxSegmentAddr()] of its object file, which is 2. *)
Lemma bounding_box_true_end_counterexample :
  wf_object topObject = true
  /\ In topSegment (segments topObject)
  /\ maxSegmentAddr topObject = 2
  /\ ~ (minSegmentAddr topObject <= base topSegment
        /\ base topSegment + size topSegment <= maxSegmentAddr topObject).
Proof.
  split; [reflexivity | split; [left; reflexivity | split; [reflexivity | ]]].
  intros [_ Hmax]. vm_compute in Hmax. now apply Hmax.
Qed.

(** C10 as stated fails: [topSegment] passes the top of the address space,
    its base lies inside it, and [contains] answers true there because
    another segment holds that address. *)
Lemma overflowing_segment_overlap_counterexample :
  wf_object overlapObject = true
  /\ In topSegment (segments overlapObject)
  /\ maxAddr < base topSegment + size topSegment
  /\ ~ (forall addr : Addr,
          base topSegment <= addr < base topSegment + size topSegment ->
          contains overlapObject addr = false).
Proof.
  split; [reflexivity | split; [left; reflexivity | split; [reflexivity | ]]].
  intros Hall.
  specialize (Hall 18446744073709551614).
  assert (Hc : contains overlapObject 18446744073709551614 = false).
  { apply Hall. simpl. lia. }
  vm_compute in Hc. discriminate.
Qed.

(** ** Further properties of the address-range queries *)

Section RangeQueryLaws.
Context `{AddrType}.

Lemma max_step (end_ max : Addr) :
  (if end_ >? max then end_ else max) = Z.max max end_.
Proof.
  rewrite Z.gtb_ltb. destruct (Z.ltb_spec max end_); lia.
Qed.

Lemma min_step (b min : Addr) :
  (if b <? min then b else min) = Z.min min b.
Proof.
  destruct (Z.ltb_spec b min); lia.
Qed.

Lemma maxSegmentAddr_loop_app (l1 l2 : list Segment) (max : Addr) :
  maxSegmentAddr_loop (l1 ++ l2) max
  = maxSegmentAddr_loop l2 (maxSegmentAddr_loop l1 max).
Proof.
  revert max. induction l1 as [ | seg l1 IH]; intros max; simpl; auto.
Qed.

Lemma minSegmentAddr_loop_app (l1 l2 : list Segment) (min : Addr) :
  minSegmentAddr_loop (l1 ++ l2) min
  = minSegmentAddr_loop l2 (minSegmentAddr_loop l1 min).
Proof.
  revert min. induction l1 as [ | seg l1 IH]; intros min; simpl; auto.
Qed.

Lemma contains_loop_app (l1 l2 : list Segment) (addr : Addr) :
  contains_loop (l1 ++ l2) addr
  = contains_loop l1 addr || contains_loop l2 addr.
Proof.
  induction l1 as [ | seg l1 IH]; simpl; auto.
  now destruct ((addr >=? base seg) && (addr <? segmentEnd seg)).
Qed.

Lemma minSegmentAddr_loop_attained (segs : list Segment) (min : Addr) :
  minSegmentAddr_loop segs min = min \/
  exists seg, In seg segs /\ minSegmentAddr_loop segs min = base seg.
Proof.
  revert min. induction segs as [ | s rest IH]; intros min; simpl.
  - now left.
  - destruct (IH (if base s <? min then base s else min))
      as [Heq | (seg & Hin & Heq)].
    + rewrite Heq. destruct (base s <? min).
      * right. exists s. auto.
      * now left.
    + right. exists seg. auto.
Qed.

Lemma maxSegmentAddr_loop_perm (l1 l2 : list Segment) :
  Permutation l1 l2 ->
  forall max, maxSegmentAddr_loop l1 max = maxSegmentAddr_loop l2 max.
Proof.
  induction 1 as [ | x l l' _ IH | x y l | l l' l'' _ IH1 _ IH2];
    intros max; simpl.
  - reflexivity.
  - apply IH.
  - f_equal. rewrite !max_step. lia.
  - now rewrite IH1.
Qed.

Lemma minSegmentAddr_loop_perm (l1 l2 : list Segment) :
  Permutation l1 l2 ->
  forall min, minSegmentAddr_loop l1 min = minSegmentAddr_loop l2 min.
Proof.
  induction 1 as [ | x l l' _ IH | x y l | l l' l'' _ IH1 _ IH2];
    intros min; simpl.
  - reflexivity.
  - apply IH.
  - f_equal. rewrite !min_step. lia.
  - now rewrite IH1.
Qed.

Lemma contains_loop_perm (l1 l2 : list Segment) (addr : Addr) :
  Permutation l1 l2 -> contains_loop l1 addr = contains_loop l2 addr.
Proof.
  intros Hperm.
  apply eq_true_iff_eq. rewrite !contains_loop_iff.
  split; intros (seg & Hin & Hr); exists seg; split; auto.
  - now apply (Permutation_in seg Hperm).
  - now apply (Permutation_in seg (Permutation_sym Hperm)).
Qed.

(** A segment whose test fails at [addr] does not take part in the answer
    of [contains]. *)
Lemma contains_loop_skip (pre post : list Segment) (seg : Segment)
    (addr : Addr) :
  (addr >=? base seg) && (addr <? segmentEnd seg) = false ->
  contains_loop (pre ++ seg :: post) addr = contains_loop (pre ++ post) addr.
Proof.
  intros Htest. rewrite !contains_loop_app. simpl. now rewrite Htest.
Qed.

(** Every address that [contains] accepts lies between [minSegmentAddr()]
    and [maxSegmentAddr()], whatever the segments are. *)
Theorem contains_within_bounds (o : ObjectFile) (addr : Addr) :
  contains o addr = true ->
  minSegmentAddr o <= addr < maxSegmentAddr o.
Proof.
  unfold contains. rewrite contains_loop_iff.
  intros (seg & Hin & Hlo & Hhi).
  pose proof (minSegmentAddr_loop_le_base (segments o) maxAddr seg Hin).
  pose proof (maxSegmentAddr_loop_ge_end (segments o) 0 seg Hin).
  unfold minSegmentAddr, maxSegmentAddr. lia.
Qed.

(** The three queries do not depend on the order in which the segments
    were added. *)
Theorem queries_order_independent (o1 o2 : ObjectFile) :
  Permutation (segments o1) (segments o2) ->
  maxSegmentAddr o1 = maxSegmentAddr o2
  /\ minSegmentAddr o1 = minSegmentAddr o2
  /\ (forall addr : Addr, contains o1 addr = contains o2 addr).
Proof.
  intros Hperm. unfold maxSegmentAddr, minSegmentAddr, contains.
  split; [ | split].
  - now apply maxSegmentAddr_loop_perm.
  - now apply minSegmentAddr_loop_perm.
  - intros addr. now apply contains_loop_perm.
Qed.

(** What [addSegment] does to the queries: the new maximum is the larger of
    the old one and the new segment's wrapped end, the new minimum the
    smaller of the old one and the new base, and [contains] accepts what it
    accepted before and what passes the new segment's test. *)
Theorem addSegment_queries (o : ObjectFile) (nm : string) (b : Addr)
    (d : list byte) (sz : Z) :
  maxSegmentAddr (addSegment o nm b d sz)
    = Z.max (maxSegmentAddr o) ((b + sz) mod 2 ^ addr_bits)
  /\ minSegmentAddr (addSegment o nm b d sz) = Z.min (minSegmentAddr o) b
  /\ (forall addr : Addr,
        contains (addSegment o nm b d sz) addr
        = contains o addr
          || ((addr >=? b) && (addr <? (b + sz) mod 2 ^ addr_bits))).
Proof.
  unfold maxSegmentAddr, minSegmentAddr, contains. simpl.
  split; [ | split].
  - rewrite maxSegmentAddr_loop_app. simpl. apply max_step.
  - rewrite minSegmentAddr_loop_app. simpl. apply min_step.
  - intros addr. rewrite contains_loop_app. simpl.
    unfold segmentEnd, wrap, modulus. simpl.
    now destruct ((addr >=? b) && (addr <? (b + sz) mod 2 ^ addr_bits)).
Qed.

(** For an object file with at least one segment, [maxSegmentAddr()] is the
    greatest wrapped end of a segment; when in addition every base is an
    address, [minSegmentAddr()] is the least base of a segment. *)
Theorem extremes_attained (o : ObjectFile) :
  segments o <> [] ->
  (exists seg, In seg (segments o)
               /\ maxSegmentAddr o = (base seg + size seg) mod 2 ^ addr_bits
               /\ forall seg', In seg' (segments o) ->
                    (base seg' + size seg') mod 2 ^ addr_bits
                    <= maxSegmentAddr o)
  /\ (forallb (fun seg => is_addr (base seg)) (segments o) = true ->
      exists seg, In seg (segments o)
                  /\ minSegmentAddr o = base seg
                  /\ forall seg', In seg' (segments o) ->
                       minSegmentAddr o <= base seg').
Proof.
  intros Hne. split.
  - assert (Hub : forall seg', In seg' (segments o) ->
                    segmentEnd seg' <= maxSegmentAddr o)
      by (intros seg'; apply maxSegmentAddr_loop_ge_end).
    destruct (maxSegmentAddr_loop_attained (segments o) 0)
      as [Hzero | (seg & Hin & Heq)].
    + destruct (segments o) as [ | s rest] eqn:Hsegs; [congruence | ].
      exists s. split; [now left | split; [ | exact Hub]].
      pose proof (Hub s (or_introl eq_refl)) as Hs.
      pose proof (wrap_range (base s + size s)) as Hr.
      unfold maxSegmentAddr in *. rewrite Hsegs in *.
      unfold segmentEnd in Hs. change ((base s + size s) mod 2 ^ addr_bits)
        with (wrap (base s + size s)). lia.
    + exists seg. split; [exact Hin | split; [exact Heq | exact Hub]].
  - intros Hbases. rewrite forallb_forall in Hbases.
    assert (Hlb : forall seg', In seg' (segments o) ->
                    minSegmentAddr o <= base seg')
      by (intros seg'; apply minSegmentAddr_loop_le_base).
    destruct (minSegmentAddr_loop_attained (segments o) maxAddr)
      as [Hmax | (seg & Hin & Heq)].
    + destruct (segments o) as [ | s rest] eqn:Hsegs; [congruence | ].
      exists s. split; [now left | split; [ | exact Hlb]].
      pose proof (Hlb s (or_introl eq_refl)) as Hs.
      pose proof (Hbases s (or_introl eq_refl)) as Hb.
      apply is_addr_spec in Hb.
      unfold minSegmentAddr in *. rewrite Hsegs in *. lia.
    + exists seg. split; [exact Hin | split; [exact Heq | exact Hlb]].
Qed.

(** A segment of the object file whose [base + size] stays within the
    address space makes [minSegmentAddr() <= maxSegmentAddr()], and the span
    between the two is at least the segment's size. *)
Theorem span_covers_segment (o : ObjectFile) (seg : Segment) :
  In seg (segments o) ->
  wf_segment seg = true ->
  endFits seg = true ->
  minSegmentAddr o <= maxSegmentAddr o
  /\ size seg <= maxSegmentAddr o - minSegmentAddr o.
Proof.
  intros Hin Hwf Hfit.
  pose proof (minSegmentAddr_loop_le_base (segments o) maxAddr seg Hin) as Hlo.
  pose proof (maxSegmentAddr_loop_ge_end (segments o) 0 seg Hin) as Hhi.
  rewrite (segmentEnd_fits seg Hfit) in Hhi.
  apply wf_segment_spec in Hwf.
  unfold minSegmentAddr, maxSegmentAddr. lia.
Qed.

(** A segment of size 0 is invisible to [contains]: the answer is the same
    as without it. *)
Theorem empty_segment_ignored (o o' : ObjectFile)
    (pre post : list Segment) (seg : Segment) :
  segments o = pre ++ seg :: post ->
  segments o' = pre ++ post ->
  is_addr (base seg) = true ->
  size seg = 0 ->
  forall addr : Addr, contains o addr = contains o' addr.
Proof.
  intros Hsegs Hsegs' Hbase Hsize addr. unfold contains.
  rewrite Hsegs, Hsegs'. apply contains_loop_skip.
  apply is_addr_spec in Hbase.
  unfold segmentEnd. rewrite Hsize, Z.add_0_r, (wrap_small _ Hbase).
  rewrite Z.geb_leb.
  destruct (Z.leb_spec (base seg) addr), (Z.ltb_spec addr (base seg));
    simpl; auto; lia.
Qed.

(** The defaults of the header, [loadOffset = 0] and [loadMask = maxAddr],
    are neutral: on a freshly constructed object file, adding the offset
    to an address and masking an address both give the address back. *)
Theorem default_offset_and_mask_neutral (fname : string) (l : Z)
    (d : list byte) (a : Arch) (os : OpSys) (addr : Addr) :
  is_addr addr = true ->
  (addr + loadOffset (newObjectFile fname l d a os)) mod 2 ^ addr_bits = addr
  /\ Z.land addr (loadMask (newObjectFile fname l d a os)) = addr.
Proof.
  intros Haddr. apply is_addr_spec in Haddr. simpl.
  pose proof addr_bits_pos as Hw.
  split.
  - rewrite Z.add_0_r. now apply wrap_small.
  - rewrite maxAddr_all_ones, Z.land_ones by lia. now apply wrap_small.
Qed.
End RangeQueryLaws.

(** ** Sequences of calls on one object file *)

Section CallSequenceLaws.
Context `{AddrType}.
Variable Mem : Type.
Variable write : Mem -> Addr -> list byte -> bool * Mem.

Lemma call_object_after (op : Operation Mem) (o : ObjectFile) (v : Value)
    (o' : ObjectFile) :
  call Mem write op o = Ret (v, o') ->
  o' = {| filename := filename o; fileData := fileData o; len := len o;
          loadOffset := lastLoadOffset [op] (loadOffset o);
          loadMask := lastLoadMask [op] (loadMask o);
          arch := arch o; opSys := opSys o; entry := entry o;
          segments := segments o ++ addedSegment op |}.
Proof.
  destruct o as [fn fd l off mask a os e segs].
  destruct op; simpl; intros Hcall;
    try discriminate;
    try (injection Hcall as <- <-; simpl; now rewrite ?app_nil_r).
  destruct (loadSegments Mem write _ mem) as [[ok m] | msg]; simpl in Hcall;
    [injection Hcall as <- <-; simpl; now rewrite app_nil_r | discriminate].
Qed.

Lemma callAll_object_after (ops : list (Operation Mem)) (o : ObjectFile)
    (vals : list Value) (o' : ObjectFile) :
  callAll Mem write ops o = Ret (vals, o') ->
  o' = {| filename := filename o; fileData := fileData o; len := len o;
          loadOffset := lastLoadOffset ops (loadOffset o);
          loadMask := lastLoadMask ops (loadMask o);
          arch := arch o; opSys := opSys o; entry := entry o;
          segments := segments o ++ addedSegments ops |}
  /\ List.length vals = List.length ops.
Proof.
  revert o vals. induction ops as [ | op rest IH]; intros o vals Hrun;
    simpl in Hrun.
  - injection Hrun as <- <-. destruct o. simpl. now rewrite app_nil_r.
  - destruct (call Mem write op o) as [[v o1] | msg] eqn:Hcall;
      simpl in Hrun; [ | discriminate].
    destruct (callAll Mem write rest o1) as [[vs o2] | msg] eqn:Hrest;
      simpl in Hrun; [ | discriminate].
    injection Hrun as <- <-.
    destruct (IH o1 vs Hrest) as [-> Hlen].
    rewrite (call_object_after op o v o1 Hcall). simpl.
    unfold addedSegments. simpl. rewrite <- app_assoc, Hlen.
    split; reflexivity.
Qed.

Lemma call_returns (op : Operation Mem) (o : ObjectFile) :
  returns (call Mem write op o) = negb (panicking op).
Proof.
  destruct op; simpl; try reflexivity.
  pose proof (loadSegments_loop_returns Mem write o (segments o) mem) as Hret.
  unfold loadSegments.
  now destruct (loadSegments_loop Mem write o (segments o) mem).
Qed.

(** After a sequence of calls that returns, the segments are the initial
    ones followed by those handed to [addSegment], in call order; load
    offset and mask hold the argument of their last setter; the file name,
    the file data, its length and the entry point are as before. *)
Theorem callAll_final_object (ops : list (Operation Mem)) (o : ObjectFile)
    (vals : list Value) (o' : ObjectFile) :
  callAll Mem write ops o = Ret (vals, o') ->
  segments o' = segments o ++ addedSegments ops
  /\ loadOffset o' = lastLoadOffset ops (loadOffset o)
  /\ loadMask o' = lastLoadMask ops (loadMask o)
  /\ filename o' = filename o /\ fileData o' = fileData o
  /\ len o' = len o /\ entryPoint o' = entryPoint o
  /\ List.length vals = List.length ops.
Proof.
  intros Hrun.
  destruct (callAll_object_after ops o vals o' Hrun) as [-> Hlen].
  simpl. repeat split; auto.
Qed.

(** Over a sequence of calls the bounding box only grows:
    [maxSegmentAddr()] never decreases, [minSegmentAddr()] never increases,
    and an address that [contains] accepted stays accepted. *)
Theorem callAll_bounds_grow (ops : list (Operation Mem)) (o : ObjectFile)
    (vals : list Value) (o' : ObjectFile) :
  callAll Mem write ops o = Ret (vals, o') ->
  maxSegmentAddr o <= maxSegmentAddr o'
  /\ minSegmentAddr o' <= minSegmentAddr o
  /\ (forall addr : Addr, contains o addr = true -> contains o' addr = true).
Proof.
  intros Hrun.
  destruct (callAll_object_after ops o vals o' Hrun) as [-> _].
  unfold maxSegmentAddr, minSegmentAddr, contains. simpl.
  rewrite maxSegmentAddr_loop_app, minSegmentAddr_loop_app.
  split; [apply maxSegmentAddr_loop_ge_acc | split].
  - apply minSegmentAddr_loop_le_acc.
  - intros addr Hc. now rewrite contains_loop_app, Hc.
Qed.

(** A sequence of calls on a base-class object file runs to its end exactly
    when it holds no [mapSize()] and no [updateBias()]. *)
Theorem callAll_returns_iff (ops : list (Operation Mem)) (o : ObjectFile) :
  returns (callAll Mem write ops o) = negb (existsb panicking ops).
Proof.
  revert o. induction ops as [ | op rest IH]; intros o; simpl.
  - reflexivity.
  - pose proof (call_returns op o) as Hop.
    destruct (call Mem write op o) as [[v o1] | msg]; simpl in *.
    + rewrite <- (negb_involutive (panicking op)), <- Hop. simpl.
      specialize (IH o1).
      now destruct (callAll Mem write rest o1) as [[vs o2] | msg].
    + now rewrite <- (negb_involutive (panicking op)), <- Hop.
Qed.
End CallSequenceLaws.

(** ** The fast-model GIC wrapper *)

Section FastModelGICLaws.
Variable S : Type.
Variables eoe sos : S -> S.

(** The fast model's [start_of_simulation] runs once, inside
    [end_of_elaboration]: however often the kernel's start-of-simulation
    callback fires afterwards, the subsystem stays as [end_of_elaboration]
    left it. *)
Theorem SCGIC_starts_once (n : nat) (s : S) :
  Nat.iter n (SCGIC_start_of_simulation S)
    (SCGIC_end_of_elaboration S eoe sos s)
  = sos (eoe s).
Proof.
  induction n as [ | n IH]; simpl.
  - reflexivity.
  - unfold SCGIC_start_of_simulation at 1. exact IH.
Qed.
End FastModelGICLaws.

(** ** The further properties at concrete inputs *)

Lemma contains_within_bounds_witness :
  contains twoSegments 12289 = true
  /\ minSegmentAddr twoSegments <= 12289 < maxSegmentAddr twoSegments.
Proof.
  split; [reflexivity | ].
  apply (contains_within_bounds twoSegments 12289). reflexivity.
Defined.

Lemma queries_order_independent_witness :
  maxSegmentAddr overlapObject
    = maxSegmentAddr
        (addSegment (addSegment emptyObject "low" 18446744073709551614 [xff] 1)
                    "top" (base topSegment) (data topSegment) 4)
  /\ contains overlapObject 18446744073709551614
     = contains
         (addSegment (addSegment emptyObject "low" 18446744073709551614 [xff] 1)
                     "top" (base topSegment) (data topSegment) 4)
         18446744073709551614.
Proof.
  destruct (queries_order_independent overlapObject
              (addSegment
                 (addSegment emptyObject "low" 18446744073709551614 [xff] 1)
                 "top" (base topSegment) (data topSegment) 4)
              (perm_swap _ _ []))
    as (Hmax & _ & Hcont).
  split; [exact Hmax | exact (Hcont 18446744073709551614)].
Defined.

Lemma extremes_attained_witness :
  exists seg, In seg (segments twoSegments)
              /\ minSegmentAddr twoSegments = base seg.
Proof.
  assert (Hne : segments twoSegments <> []) by discriminate.
  assert (Hbases : forallb (fun seg => is_addr (base seg))
                     (segments twoSegments) = true) by reflexivity.
  destruct (proj2 (extremes_attained twoSegments Hne) Hbases)
    as (seg & Hin & Heq & _).
  exists seg. split; assumption.
Defined.

Lemma span_covers_segment_witness :
  minSegmentAddr twoSegments <= maxSegmentAddr twoSegments
  /\ 4 <= maxSegmentAddr twoSegments - minSegmentAddr twoSegments.
Proof.
  assert (Hin : In textSegment (segments twoSegments)) by (left; reflexivity).
  assert (Hwf : wf_segment textSegment = true) by reflexivity.
  assert (Hfit : endFits textSegment = true) by reflexivity.
  exact (span_covers_segment twoSegments textSegment Hin Hwf Hfit).
Defined.

Lemma empty_segment_ignored_witness :
  contains (addSegment twoSegments "empty" 4100 [] 0) 4100
  = contains twoSegments 4100.
Proof.
  apply (empty_segment_ignored (addSegment twoSegments "empty" 4100 [] 0)
           twoSegments [textSegment; bssSegment] []
           {| name := "empty"; base := 4100; data := []; size := 0 |});
    reflexivity.
Defined.

Lemma default_offset_and_mask_neutral_witness :
  (4096 + loadOffset emptyObject) mod 2 ^ 64 = 4096
  /\ Z.land 4096 (loadMask emptyObject) = 4096.
Proof.
  assert (Haddr : is_addr 4096 = true) by reflexivity.
  exact (default_offset_and_mask_neutral "empty" 0 [] UnknownArch
           UnknownOpSys 4096 Haddr).
Defined.

Lemma callAll_final_object_witness :
  exists vals o',
    callAll RecMem (recWrite 8192) exampleCalls
      (newObjectFile "a.out" 0 [] X86_64 Linux) = Ret (vals, o')
    /\ segments o' = [textSegment]
    /\ loadOffset o' = 16 /\ loadMask o' = 4095.
Proof.
  eexists. eexists. split; [reflexivity | ].
  refine (let T := callAll_final_object RecMem (recWrite 8192) exampleCalls
                     (newObjectFile "a.out" 0 [] X86_64 Linux) _ _ eq_refl
          in _).
  destruct T as (Hsegs & Hoff & Hmask & _).
  split; [exact Hsegs | split; [exact Hoff | exact Hmask]].
Defined.

Lemma callAll_bounds_grow_witness :
  exists vals o',
    callAll RecMem (recWrite 8192) exampleCalls
      (newObjectFile "a.out" 0 [] X86_64 Linux) = Ret (vals, o')
    /\ maxSegmentAddr (newObjectFile "a.out" 0 [] X86_64 Linux)
       <= maxSegmentAddr o'
    /\ minSegmentAddr o'
       <= minSegmentAddr (newObjectFile "a.out" 0 [] X86_64 Linux).
Proof.
  eexists. eexists. split; [reflexivity | ].
  refine (let T := callAll_bounds_grow RecMem (recWrite 8192) exampleCalls
                     (newObjectFile "a.out" 0 [] X86_64 Linux) _ _ eq_refl
          in _).
  destruct T as (Hmax & Hmin & _).
  split; [exact Hmax | exact Hmin].
Defined.
